(** * reboundx: radiation forces (src/radiation_forces.c)

    A shallow embedding of [rebx_radiation_forces], the kernel that adds the
    reaction of radiation pressure and Poynting-Robertson drag (Burns, Lamy &
    Soter 1979, eq. 5) to the acceleration of the radiation source.

    The C function computes in [double].  The embedding is written once over
    an interface [Arith] holding the six operations the function uses, and
    is instantiated twice:
    - [binary64]: the primitive IEEE 754 binary64 numbers of Rocq (round to
      nearest even, one NaN), the arithmetic the compiled C code runs on;
      everything proved for every [Arith] holds for it, and the scenarios
      are evaluated in it;
    - [exact]: the real numbers, for the algebraic properties that hold up
      to rounding only.  Division on the reals is total: the behaviour of
      the code at a zero distance is settled in binary64, not there.

    Undefined behaviour of the C code (an index outside of the array, a
    signed overflow) is modelled as [None].

    The [#pragma omp parallel for] of the source is not modelled: the loop is
    embedded with its sequential meaning (the one the code has when compiled
    without OpenMP). *)

From Stdlib Require Import Floats.PrimFloat.
From Stdlib Require Import ZArith Reals Lra.
From stdpp Require Import base option list.

Set Default Proof Using "Type".

(** A decimal literal denotes the nearest binary64 number, as in C. *)
Set Warnings "-inexact-float".

(** ** Arithmetic *)

(** The operations of [double] that the source uses: [+], [-], [*], [/],
    [sqrt] and the literal [1.]. *)
Class Arith (F : Type) := {
  fadd : F -> F -> F;
  fsub : F -> F -> F;
  fmul : F -> F -> F;
  fdiv : F -> F -> F;
  fsqrt : F -> F;
  fone : F
}.

Declare Scope dbl_scope.
Delimit Scope dbl_scope with D.
Infix "+" := fadd : dbl_scope.
Infix "-" := fsub : dbl_scope.
Infix "*" := fmul : dbl_scope.
Infix "/" := fdiv : dbl_scope.

(** IEEE 754 binary64, round to nearest even: C's [double]. *)
#[export] Instance binary64 : Arith float := {
  fadd := PrimFloat.add;
  fsub := PrimFloat.sub;
  fmul := PrimFloat.mul;
  fdiv := PrimFloat.div;
  fsqrt := PrimFloat.sqrt;
  fone := 1%float
}.

(** Exact arithmetic on the reals. *)
#[export] Instance exact : Arith R := {
  fadd := Rplus;
  fsub := Rminus;
  fmul := Rmult;
  fdiv := Rdiv;
  fsqrt := R_sqrt.sqrt;
  fone := 1%R
}.

(** ** C integers *)

(** [int] is 32 bits wide; a signed operation whose result does not fit is
    undefined behaviour, modelled as [None]. *)
Definition INT_MIN : Z := - 2 ^ 31.
Definition INT_MAX : Z := 2 ^ 31 - 1.

Definition in_int (n : Z) : bool := (INT_MIN <=? n)%Z && (n <=? INT_MAX)%Z.

Definition int_sub (a b : Z) : option Z :=
  if in_int (a - b) then Some (a - b)%Z else None.

(** ** Data model *)

(** Modelled from the spec: [enum REBX_PARAMS] of reboundx.h, the key
    identifiers of the per-particle parameter store.  Only [RAD_BETA] is
    named by the source; every other key is [REBX_OTHER]. *)
Inductive REBX_PARAMS : Set :=
  | RAD_BETA
  | REBX_OTHER (k : nat).

#[export] Instance REBX_PARAMS_eq_dec : EqDecision REBX_PARAMS.
Proof. solve_decision. Defined.

(** Modelled from the spec: [struct reb_particle] of rebound.h, with the
    fields the kernel touches (position, velocity, acceleration, mass) and
    [ap], the particle's keyed parameter store, as a list of entries. *)
Record reb_particle {F : Type} : Type := mk_particle {
  x : F; y : F; z : F;
  vx : F; vy : F; vz : F;
  ax : F; ay : F; az : F;
  m : F;
  ap : list (REBX_PARAMS * F)
}.
Arguments reb_particle : clear implicits.
Arguments mk_particle {F}.

(** Modelled from the spec: [struct reb_simulation] of rebound.h, with the
    fields the kernel reads. *)
Record reb_simulation {F : Type} : Type := mk_simulation {
  G : F;
  N : Z;
  N_var : Z;
  particles : list (reb_particle F)
}.
Arguments reb_simulation : clear implicits.
Arguments mk_simulation {F}.

(** Modelled from the spec: [struct rebx_params_radiation_forces] and
    [struct rebx_effect] of reboundx.h. *)
Record rebx_params_radiation_forces {F : Type} : Type := mk_params {
  c : F;
  source_index : Z
}.
Arguments rebx_params_radiation_forces : clear implicits.
Arguments mk_params {F}.

Record rebx_effect {F : Type} : Type := mk_effect {
  paramsPtr : rebx_params_radiation_forces F
}.
Arguments rebx_effect : clear implicits.
Arguments mk_effect {F}.

(** Modelled from the spec: [rebx_search_param] of reboundx, the key-based
    lookup in a particle's parameter store: the value of the first entry
    stored under the key, or [None] (the C function's [NULL]). *)
Fixpoint search_entries {F : Type} (l : list (REBX_PARAMS * F)) (param : REBX_PARAMS)
  : option F :=
  match l with
  | [] => None
  | (k, v) :: rest => if decide (k = param) then Some v else search_entries rest param
  end.

Definition rebx_search_param {F : Type} (p : reb_particle F) (param : REBX_PARAMS)
  : option F :=
  search_entries (ap p) param.

(** ** Arrays of particles *)

(** [a[i]] for a C [int] index: reading outside of the array is undefined
    behaviour, modelled as [None]. *)
Definition index {A : Type} (a : list A) (i : Z) : option A :=
  if (i <? 0)%Z then None else a !! Z.to_nat i.

(** [a[i] = v]. *)
Definition store {A : Type} (a : list A) (i : Z) (v : A) : option (list A) :=
  match index a i with
  | Some _ => Some (<[Z.to_nat i := v]> a)
  | None => None
  end.

Section Kernel.
Context {F : Type} `{Arith F}.
Local Open Scope dbl_scope.

Definition set_ax (p : reb_particle F) (v : F) : reb_particle F :=
  mk_particle (x p) (y p) (z p) (vx p) (vy p) (vz p) v (ay p) (az p) (m p) (ap p).
Definition set_ay (p : reb_particle F) (v : F) : reb_particle F :=
  mk_particle (x p) (y p) (z p) (vx p) (vy p) (vz p) (ax p) v (az p) (m p) (ap p).
Definition set_az (p : reb_particle F) (v : F) : reb_particle F :=
  mk_particle (x p) (y p) (z p) (vx p) (vy p) (vz p) (ax p) (ay p) v (m p) (ap p).

(** [a[i].ax += v;] and its two siblings: a read of the array element, an
    addition, a write. *)
Definition add_ax (a : list (reb_particle F)) (i : Z) (v : F) :=
  q ← index a i; store a i (set_ax q (ax q + v)).
Definition add_ay (a : list (reb_particle F)) (i : Z) (v : F) :=
  q ← index a i; store a i (set_ay q (ay q + v)).
Definition add_az (a : list (reb_particle F)) (i : Z) (v : F) :=
  q ← index a i; store a i (set_az q (az q + v)).

(** ** The kernel *)

(** The body of the [for] loop (lines 42-63) at index [i], on the array
    [particles]; [source] and [mu] are the locals set before the loop. *)
Definition loop_body (c : F) (source_index : Z) (source : reb_particle F) (mu : F)
    (i : Z) (particles : list (reb_particle F)) : option (list (reb_particle F)) :=
  if (i =? source_index)%Z then Some particles
  else
    p ← index particles i;
    match rebx_search_param p RAD_BETA with
    | None => Some particles
    | Some beta =>
        let dx := x p - x source in
        let dy := y p - y source in
        let dz := z p - z source in
        let dr := fsqrt (dx * dx + dy * dy + dz * dz) in
        let dvx := vx p - vx source in
        let dvy := vy p - vy source in
        let dvz := vz p - vz source in
        let rdot := (dx * dvx + dy * dvy + dz * dvz) / dr in
        let a_rad := beta * mu / (dr * dr) in
        particles ← add_ax particles source_index
                      (a_rad * ((fone - rdot / c) * dx / dr - dvx / c));
        particles ← add_ay particles source_index
                      (a_rad * ((fone - rdot / c) * dy / dr - dvy / c));
        add_az particles source_index
                      (a_rad * ((fone - rdot / c) * dz / dr - dvz / c))
    end.

(** [for (int i = i0; i < i0 + n; i++) body]: [n] is the number of
    iterations still to run. *)
Fixpoint loop (c : F) (source_index : Z) (source : reb_particle F) (mu : F)
    (n : nat) (i : Z) (particles : list (reb_particle F))
    : option (list (reb_particle F)) :=
  match n with
  | O => Some particles
  | S n' =>
      particles ← loop_body c source_index source mu i particles;
      loop c source_index source mu n' (i + 1)%Z particles
  end.

Definition rebx_radiation_forces (sim : reb_simulation F) (rad : rebx_effect F)
    : option (reb_simulation F) :=
  let params := paramsPtr rad in
  let c := c params in
  let source_index := source_index params in
  let particles := particles sim in
  source ← index particles source_index;
  let mu := G sim * m source in
  _N_real ← int_sub (N sim) (N_var sim);
  particles ← loop c source_index source mu (Z.to_nat _N_real) 0%Z particles;
  Some (mk_simulation (G sim) (N sim) (N_var sim) particles).

End Kernel.

(** ** The contribution of one particle *)

Section Increment.
Context {F : Type} `{Arith F}.
Local Open Scope dbl_scope.

(** Vectors of three components. *)
Definition vec : Type := F * F * F.

Definition vadd (u v : vec) : vec :=
  let '(u1, u2, u3) := u in
  let '(v1, v2, v3) := v in
  (u1 + v1, u2 + v2, u3 + v3).

Definition pos (p : reb_particle F) : vec := (x p, y p, z p).
Definition vel (p : reb_particle F) : vec := (vx p, vy p, vz p).
Definition acc (p : reb_particle F) : vec := (ax p, ay p, az p).

Definition set_acc (p : reb_particle F) (a : vec) : reb_particle F :=
  let '(a1, a2, a3) := a in
  mk_particle (x p) (y p) (z p) (vx p) (vy p) (vz p) a1 a2 a3 (m p) (ap p).

(** The particle's parameter store replaced by [l]. *)
Definition set_ap (p : reb_particle F) (l : list (REBX_PARAMS * F)) : reb_particle F :=
  mk_particle (x p) (y p) (z p) (vx p) (vy p) (vz p) (ax p) (ay p) (az p) (m p) l.

Definition add_acc (p : reb_particle F) (v : vec) : reb_particle F :=
  set_acc p (vadd (acc p) v).

(** The locals of lines 48-57, as functions of the source snapshot and of
    the particle. *)
Definition dr (source p : reb_particle F) : F :=
  fsqrt ((x p - x source) * (x p - x source)
         + (y p - y source) * (y p - y source)
         + (z p - z source) * (z p - z source)).

Definition rdot (source p : reb_particle F) : F :=
  ((x p - x source) * (vx p - vx source)
   + (y p - y source) * (vy p - vy source)
   + (z p - z source) * (vz p - vz source)) / dr source p.

Definition a_rad (mu : F) (source p : reb_particle F) (beta : F) : F :=
  beta * mu / (dr source p * dr source p).

(** The factor [1.-rdot/c] that lines 61-63 apply to the radial component. *)
Definition correction (c rdot : F) : F := fone - rdot / c.

(** The three values added by lines 61-63. *)
Definition increment (c mu : F) (source p : reb_particle F) (beta : F) : vec :=
  (a_rad mu source p beta
     * ((fone - rdot source p / c) * (x p - x source) / dr source p
        - (vx p - vx source) / c),
   a_rad mu source p beta
     * ((fone - rdot source p / c) * (y p - y source) / dr source p
        - (vy p - vy source) / c),
   a_rad mu source p beta
     * ((fone - rdot source p / c) * (z p - z source) / dr source p
        - (vz p - vz source) / c)).

(** What the particle at index [i] brings to the loop: itself and its beta
    coefficient when it is not the source and carries one, nothing
    otherwise. *)
Definition contribution (source_index : Z) (particles : list (reb_particle F)) (i : Z)
    : list (reb_particle F * F) :=
  if (i =? source_index)%Z then []
  else match index particles i with
       | Some p =>
           match rebx_search_param p RAD_BETA with
           | Some beta => [(p, beta)]
           | None => []
           end
       | None => []
       end.

(** The tagged particles among the [n] indices from [i] on, the source
    excepted, each with its beta coefficient, in the order of the loop. *)
Fixpoint contributors (source_index : Z) (n : nat) (i : Z)
    (particles : list (reb_particle F)) : list (reb_particle F * F) :=
  match n with
  | O => []
  | S n' => contribution source_index particles i
            ++ contributors source_index n' (i + 1)%Z particles
  end.

(** Whether every index of the loop, the source excepted, is inside the
    array. *)
Fixpoint covered (source_index : Z) (n : nat) (i : Z)
    (particles : list (reb_particle F)) : bool :=
  match n with
  | O => true
  | S n' =>
      ((i =? source_index)%Z || bool_decide (is_Some (index particles i)))
      && covered source_index n' (i + 1)%Z particles
  end.

Definition increments (c mu : F) (source : reb_particle F)
    (l : list (reb_particle F * F)) : list vec :=
  map (fun pb => increment c mu source pb.1 pb.2) l.

End Increment.
Arguments vec : clear implicits.


(** ** States compared by the properties *)

Section States.
Context {F : Type} `{Arith F}.

(** [f] applied to the element at index [i], nothing when [i] is outside of
    the array. *)
Definition update_at {A : Type} (f : A -> A) (i : Z) (a : list A) : list A :=
  if (i <? 0)%Z then a else alter f (Z.to_nat i) a.

Definition map_particles (f : list (reb_particle F) -> list (reb_particle F))
    (sim : reb_simulation F) : reb_simulation F :=
  mk_simulation (G sim) (N sim) (N_var sim) (f (particles sim)).

(** The acceleration of the particle at index [i]. *)
Definition acc_at (sim : reb_simulation F) (i : Z) : option (vec F) :=
  acc <$> index (particles sim) i.

(** The simulation with the parameter store of particle [j] replaced. *)
Definition retag (j : Z) (l : list (REBX_PARAMS * F)) : reb_simulation F -> reb_simulation F :=
  map_particles (update_at (fun p => set_ap p l) j).

(** The simulation with particle [j] replaced. *)
Definition put (j : Z) (q : reb_particle F) : reb_simulation F -> reb_simulation F :=
  map_particles (update_at (fun _ => q) j).





(** The simulation with [off i] added to the acceleration of particle [i]. *)
Definition shift (off : Z -> vec F) : reb_simulation F -> reb_simulation F :=
  map_particles (imap (fun k p => add_acc p (off (Z.of_nat k)))).

(** Two particles that differ at most in their accelerations. *)
Definition same_inputs (p q : reb_particle F) : Prop :=
  pos p = pos q /\ vel p = vel q /\ m p = m q /\ ap p = ap q.

(** The increments that a call adds to the source, in the order of the
    loop. *)
Definition applied_increments (sim : reb_simulation F) (rad : rebx_effect F)
    : list (vec F) :=
  match index (particles sim) (source_index (paramsPtr rad)) with
  | Some source =>
      increments (c (paramsPtr rad)) (fmul (G sim) (m source)) source
        (contributors (source_index (paramsPtr rad))
           (Z.to_nat (N sim - N_var sim)) 0 (particles sim))
  | None => []
  end.

End States.

(** ** The formula of the specification, in exact arithmetic *)

Section Formula.
Local Open Scope R_scope.

Definition vsum (l : list (vec R)) : vec R := foldr vadd (0, 0, 0) l.

Definition vsub (u v : vec R) : vec R :=
  let '(u1, u2, u3) := u in let '(v1, v2, v3) := v in (u1 - v1, u2 - v2, u3 - v3).
Definition dot (u v : vec R) : R :=
  let '(u1, u2, u3) := u in let '(v1, v2, v3) := v in u1 * v1 + u2 * v2 + u3 * v3.
Definition scale (k : R) (v : vec R) : vec R :=
  let '(v1, v2, v3) := v in (k * v1, k * v2, k * v3).
Definition vdiv (v : vec R) (k : R) : vec R :=
  let '(v1, v2, v3) := v in (v1 / k, v2 / k, v3 / k).
Definition norm (v : vec R) : R := sqrt (dot v v).

(** [d = p.position - source.position], [dr = |d|]. *)
Definition spec_d (source p : reb_particle R) : vec R := vsub (pos p) (pos source).
Definition spec_dr (source p : reb_particle R) : R := norm (spec_d source p).
(** [dv = p.velocity - source.velocity], [rdot = (d . dv) / dr]. *)
Definition spec_dv (source p : reb_particle R) : vec R := vsub (vel p) (vel source).
Definition spec_rdot (source p : reb_particle R) : R :=
  dot (spec_d source p) (spec_dv source p) / spec_dr source p.
(** [a_rad = beta * G * source.mass / dr^2]. *)
Definition spec_a_rad (G : R) (source p : reb_particle R) (beta : R) : R :=
  beta * G * m source / (spec_dr source p) ^ 2.
(** [a_rad * ((1 - rdot/c) * d/dr - dv/c)]. *)
Definition spec_vector (G c : R) (source p : reb_particle R) (beta : R) : vec R :=
  scale (spec_a_rad G source p beta)
    (vsub (scale (correction c (spec_rdot source p))
                 (vdiv (spec_d source p) (spec_dr source p)))
          (vdiv (spec_dv source p) c)).

End Formula.

(** ** Test scenarios *)

Section Binary64Scenarios.
Local Open Scope float_scope.

(** The scenario of the specification in binary64: the source at rest at
    the origin with mass 1, G = 1, c = 10000, and one tagged particle at
    (1,0,0) with zero velocity and beta = 0.01. *)
Definition scenario_source : reb_particle float :=
  mk_particle 0 0 0 0 0 0 0 0 0 1 [].
Definition scenario_dust : reb_particle float :=
  mk_particle 1 0 0 0 0 0 0 0 0 0 [(RAD_BETA, 0.01)].
Definition scenario_sim : reb_simulation float :=
  mk_simulation 1 2 0 [scenario_source; scenario_dust].
Definition scenario_rad : rebx_effect float :=
  mk_effect (mk_params 10000 0).

(** The source of the scenario after the call. *)
Definition scenario_source_after : reb_particle float :=
  mk_particle 0 0 0 0 0 0 0.01 0 0 1 [].

(** The scenario with a third particle that has no beta coefficient. *)
Definition untagged_rock : reb_particle float :=
  mk_particle 0 2 0 0 0 1 0 0 0 5 [(REBX_OTHER 0, 3)].
Definition rock_sim : reb_simulation float :=
  mk_simulation 1 3 0 [scenario_source; scenario_dust; untagged_rock].

(** The scenario with a third, tagged particle that is variational (index 2
    of 3, with [N_var = 1]). *)
Definition variational_sim : reb_simulation float :=
  mk_simulation 1 3 1 [scenario_source; scenario_dust; scenario_dust].


(** Two particles with beta = 1 at distance 1 of a source of mass 1, at
    rest: each adds exactly (1,0,0) to the acceleration of the source. *)
Definition unit_dust : reb_particle float :=
  mk_particle 1 0 0 0 0 0 0 0 0 0 [(RAD_BETA, 1)].
Definition unit_sim : reb_simulation float :=
  mk_simulation 1 3 0 [scenario_source; unit_dust; unit_dust].
(** An offset of 2^53 on the x component of every acceleration. *)
Definition big_offset (i : Z) : vec float := (0x1p53, 0, 0).

(** Two particles at (1,0,0), one receding from the source of the scenario
    and one approaching it, at speed 1. *)
Definition receding64 : reb_particle float :=
  mk_particle 1 0 0 1 0 0 0 0 0 0 [(RAD_BETA, 0.01)].
Definition approaching64 : reb_particle float :=
  mk_particle 1 0 0 (-1) 0 0 0 0 0 0 [(RAD_BETA, 0.01)].

End Binary64Scenarios.

Section ExactScenarios.
Local Open Scope R_scope.

(** The scenario of the specification in exact arithmetic. *)
Definition exact_source : reb_particle R :=
  mk_particle 0 0 0 0 0 0 0 0 0 1 [].
Definition exact_dust : reb_particle R :=
  mk_particle 1 0 0 0 0 0 0 0 0 0 [(RAD_BETA, 1 / 100)].
Definition exact_sim : reb_simulation R :=
  mk_simulation 1 2 0 [exact_source; exact_dust].
Definition exact_rad : rebx_effect R :=
  mk_effect (mk_params 10000 0).

(** Two particles at the same place, one receding from the source and one
    approaching it, at the same speed. *)
Definition receding_dust : reb_particle R :=
  mk_particle 1 0 0 2 0 0 0 0 0 0 [(RAD_BETA, 1 / 100)].
Definition approaching_dust : reb_particle R :=
  mk_particle 1 0 0 (-2) 0 0 0 0 0 0 [(RAD_BETA, 1 / 100)].


End ExactScenarios.

(** ** More states and scenarios *)

Section MoreStates.
Local Open Scope R_scope.

(** The particle seen from a frame displaced by [-a] and moving at the
    velocity [-u]: its position grows by [a] and its velocity by [u]. *)
Definition boost (a u : vec R) (p : reb_particle R) : reb_particle R :=
  let '(a1, a2, a3) := a in
  let '(u1, u2, u3) := u in
  mk_particle (x p + a1) (y p + a2) (z p + a3) (vx p + u1) (vy p + u2) (vz p + u3)
    (ax p) (ay p) (az p) (m p) (ap p).

(** The simulation with every particle boosted. *)
Definition boost_sim (a u : vec R) : reb_simulation R -> reb_simulation R :=
  map_particles (fmap (boost a u)).



End MoreStates.

Section MoreScenarios.
Local Open Scope float_scope.

(** The scenario with the tagged particle replaced by one without a beta
    coefficient. *)
Definition bare_sim : reb_simulation float :=
  mk_simulation 1 2 0 [scenario_source; untagged_rock].

(** The tagged particle of the scenario with another mass and another
    acceleration. *)
Definition heavy_dust : reb_particle float :=
  mk_particle 1 0 0 0 0 0 3 4 5 7 [(RAD_BETA, 0.01)].

End MoreScenarios.

(** ** Arrays: reading and writing *)

Section Arrays.
Context {A : Type}.
Implicit Types (a : list A) (i j : Z).

Lemma index_Some a i v :
  index a i = Some v -> (0 <= i)%Z /\ a !! Z.to_nat i = Some v.
Proof.
  unfold index. destruct (Z.ltb_spec i 0); [discriminate|]. auto.
Qed.

Lemma index_lt a i v : index a i = Some v -> (0 <= i < Z.of_nat (length a))%Z.
Proof.
  intros [Hi Hl]%index_Some. apply lookup_lt_Some in Hl. lia.
Qed.

Lemma store_Some a i v w :
  index a i = Some w -> store a i v = Some (<[Z.to_nat i := v]> a).
Proof. unfold store. by intros ->. Qed.

Lemma index_insert_eq a i v w :
  index a i = Some w -> index (<[Z.to_nat i := v]> a) i = Some v.
Proof.
  intros [Hi Hl]%index_Some. unfold index.
  destruct (Z.ltb_spec i 0); [lia|].
  apply list_lookup_insert_eq. by eapply lookup_lt_Some.
Qed.

Lemma index_insert_ne a i j v :
  (0 <= i)%Z -> i <> j -> index (<[Z.to_nat i := v]> a) j = index a j.
Proof.
  intros Hi Hne. unfold index.
  destruct (Z.ltb_spec j 0); [done|].
  apply list_lookup_insert_ne. lia.
Qed.

Lemma index_is_Some a i :
  is_Some (index a i) <-> (0 <= i < Z.of_nat (length a))%Z.
Proof.
  split.
  - intros [v Hv]. by eapply index_lt.
  - intros [Hi Hl]. unfold index.
    destruct (Z.ltb_spec i 0); [lia|].
    apply lookup_lt_is_Some. lia.
Qed.
End Arrays.

(** ** One iteration *)

Section Body.
Context {F : Type} `{Arith F}.
Implicit Types (p q s source : reb_particle F) (ps : list (reb_particle F)).

(** The three updates of lines 61-63 amount to one update of the source. *)
Lemma add_ax_ay_az ps i s v1 v2 v3 :
  index ps i = Some s ->
  (ps1 ← add_ax ps i v1; ps2 ← add_ay ps1 i v2; add_az ps2 i v3)
  = Some (<[Z.to_nat i := add_acc s (v1, v2, v3)]> ps).
Proof.
  intros Hs. unfold add_ax, add_ay, add_az.
  rewrite Hs. cbn. rewrite (store_Some _ _ _ s) by done. cbn.
  erewrite index_insert_eq by done. cbn.
  erewrite store_Some by (by eapply index_insert_eq). cbn.
  erewrite index_insert_eq by (by eapply index_insert_eq). cbn.
  erewrite store_Some by (eapply index_insert_eq; by eapply index_insert_eq).
  rewrite !list_insert_insert_eq. by destruct s.
Qed.

(** What one iteration does, once the source is known to be in the array. *)
Lemma loop_body_eq c source_index source mu i ps s :
  index ps source_index = Some s ->
  loop_body c source_index source mu i ps
  = if (i =? source_index)%Z then Some ps
    else p ← index ps i;
         Some (match rebx_search_param p RAD_BETA with
               | None => ps
               | Some beta =>
                   <[Z.to_nat source_index :=
                       add_acc s (increment c mu source p beta)]> ps
               end).
Proof.
  intros Hs. unfold loop_body.
  destruct (i =? source_index)%Z; [done|].
  destruct (index ps i) as [p|]; [cbn|done].
  destruct (rebx_search_param p RAD_BETA) as [beta|]; [|done].
  by rewrite (add_ax_ay_az _ _ s).
Qed.

End Body.

(** ** The loop *)

Section Loop.
Context {F : Type} `{Arith F}.
Implicit Types (p q s source : reb_particle F) (ps : list (reb_particle F)).

Lemma increments_app (c mu : F) source (l1 l2 : list (reb_particle F * F)) :
  increments c mu source (l1 ++ l2)
  = increments c mu source l1 ++ increments c mu source l2.
Proof. apply map_app. Qed.

(** The increments depend on the array through the contributions of the
    indices of the loop only. *)
Lemma increments_contributors_ext c mu source source' source_index n i ps ps' :
  (forall k, (i <= k < i + Z.of_nat n)%Z ->
     increments c mu source' (contribution source_index ps' k)
     = increments c mu source (contribution source_index ps k)) ->
  increments c mu source' (contributors source_index n i ps')
  = increments c mu source (contributors source_index n i ps).
Proof.
  revert i. induction n as [|n IH]; intros i Hk; [done|].
  cbn [contributors]. rewrite !increments_app.
  rewrite Hk by lia. f_equal. apply IH. intros k ?. apply Hk. lia.
Qed.

Lemma contribution_index source_index ps ps' k :
  (k <> source_index -> index ps' k = index ps k) ->
  contribution source_index ps' k = contribution source_index ps k.
Proof.
  intros Hk. unfold contribution.
  destruct (Z.eqb_spec k source_index); [done|]. by rewrite Hk.
Qed.

(** [covered] depends on the array through its length only. *)
Lemma covered_length source_index n i ps ps' :
  length ps' = length ps ->
  covered source_index n i ps' = covered source_index n i ps.
Proof.
  intros Hlen. revert i. induction n as [|n IH]; intros i; [done|].
  cbn [covered]. rewrite IH. do 2 f_equal.
  apply bool_decide_ext. by rewrite !index_is_Some, Hlen.
Qed.

(** The loop, in closed form: it fails when it reads outside of the array,
    and otherwise adds to the source, one after the other, the increments of
    the contributors. *)
Lemma loop_eq c source_index source mu n i ps s :
  index ps source_index = Some s ->
  loop c source_index source mu n i ps
  = if covered source_index n i ps then
      Some (<[Z.to_nat source_index :=
                fold_left add_acc
                  (increments c mu source (contributors source_index n i ps)) s]> ps)
    else None.
Proof.
  revert i ps s. induction n as [|n IH]; intros i ps s Hs.
  - cbn. rewrite list_insert_id; [done|]. by apply index_Some in Hs as [_ ?].
  - cbn [loop covered contributors]. unfold contribution.
    rewrite (loop_body_eq _ _ _ _ _ _ s) by done.
    destruct (Z.eqb_spec i source_index) as [->|Hne].
    { cbn. by apply IH. }
    destruct (index ps i) as [p|] eqn:Hp; [|done].
    rewrite bool_decide_true by done. cbn.
    destruct (rebx_search_param p RAD_BETA) as [beta|]; [|by apply IH].
    pose proof (index_Some _ _ _ Hs) as [Hnn _].
    set (s' := add_acc s (increment c mu source p beta)).
    rewrite (IH _ _ s') by (by eapply index_insert_eq).
    rewrite (covered_length _ _ _ ps) by apply length_insert.
    rewrite (increments_contributors_ext _ _ source source _ _ _ ps).
    { by rewrite list_insert_insert_eq. }
    intros k _. f_equal. apply contribution_index.
    intros Hk. apply index_insert_ne; [done|congruence].
Qed.

(** From index 0 on, the loop stays inside the array exactly when it runs
    no more iterations than the array has elements. *)
Lemma covered_from i source_index n ps :
  (0 <= i)%Z -> (0 <= source_index < Z.of_nat (length ps))%Z ->
  covered source_index n i ps = true
  <-> n = O \/ (i + Z.of_nat n <= Z.of_nat (length ps))%Z.
Proof.
  revert i. induction n as [|n IH]; intros i Hi Hsrc; [by split; auto|].
  cbn [covered]. rewrite andb_true_iff, orb_true_iff, IH by lia.
  rewrite Z.eqb_eq, bool_decide_eq_true, index_is_Some. lia.
Qed.

End Loop.

(** ** The whole call *)

Section Call.
Context {F : Type} `{Arith F}.
Implicit Types (p q s source : reb_particle F) (ps : list (reb_particle F)).
Implicit Types (sim : reb_simulation F) (rad : rebx_effect F).

(** The call in closed form. *)
Lemma rebx_radiation_forces_eq sim rad :
  rebx_radiation_forces sim rad
  = source ← index (particles sim) (source_index (paramsPtr rad));
    n ← int_sub (N sim) (N_var sim);
    if covered (source_index (paramsPtr rad)) (Z.to_nat n) 0 (particles sim) then
      Some (map_particles
              (fun ps => <[Z.to_nat (source_index (paramsPtr rad)) :=
                 fold_left add_acc
                   (increments (c (paramsPtr rad)) (fmul (G sim) (m source)) source
                      (contributors (source_index (paramsPtr rad)) (Z.to_nat n) 0 ps))
                   source]> ps) sim)
    else None.
Proof.
  unfold rebx_radiation_forces.
  destruct (index (particles sim) _) as [source|] eqn:Hs; [cbn|done].
  destruct (int_sub (N sim) (N_var sim)) as [n|]; [cbn|done].
  rewrite (loop_eq _ _ _ _ _ _ _ source) by done.
  by destruct (covered _ _ _ _).
Qed.

Lemma int_sub_Some a b n : int_sub a b = Some n -> n = (a - b)%Z.
Proof. unfold int_sub. destruct (in_int _); congruence. Qed.

(** The call succeeds on a simulation whose source index and particle
    counts are those of its array. *)
Lemma rebx_radiation_forces_defined sim rad :
  (0 <= source_index (paramsPtr rad) < Z.of_nat (length (particles sim)))%Z ->
  (0 <= N_var sim <= N sim)%Z -> (N sim <= INT_MAX)%Z ->
  (N sim - N_var sim <= Z.of_nat (length (particles sim)))%Z ->
  is_Some (rebx_radiation_forces sim rad).
Proof.
  intros Hsrc Hvar Hmax Hlen. rewrite rebx_radiation_forces_eq.
  destruct (proj2 (index_is_Some (particles sim) _) Hsrc) as [s ->]. cbn.
  unfold int_sub, in_int, INT_MIN, INT_MAX in *.
  rewrite andb_true_intro by (split; apply Z.leb_le; lia). cbn.
  rewrite (proj2 (covered_from 0 _ _ _ (Z.le_refl 0) Hsrc)) by lia. done.
Qed.

(** What a successful call returns. *)
Lemma rebx_radiation_forces_Some sim rad sim' :
  rebx_radiation_forces sim rad = Some sim' ->
  exists source,
    index (particles sim) (source_index (paramsPtr rad)) = Some source
    /\ in_int (N sim - N_var sim) = true
    /\ covered (source_index (paramsPtr rad)) (Z.to_nat (N sim - N_var sim)) 0
         (particles sim) = true
    /\ sim' = map_particles
         (fun ps => <[Z.to_nat (source_index (paramsPtr rad)) :=
                        fold_left add_acc (applied_increments sim rad) source]> ps) sim.
Proof.
  rewrite rebx_radiation_forces_eq. unfold applied_increments, int_sub.
  destruct (index (particles sim) _) as [source|] eqn:Hs; [cbn|done].
  destruct (in_int _) eqn:Hin; [cbn|done].
  destruct (covered _ _ _ _) eqn:Hc; [|done].
  intros [= <-]. by exists source.
Qed.



End Call.

(** ** Changing the state before or after the call *)

Section Transport.
Context {F : Type} `{Arith F}.
Implicit Types (p q s source : reb_particle F) (ps : list (reb_particle F)).
Implicit Types (sim : reb_simulation F) (rad : rebx_effect F).

(** An increment reads the position and the velocity of the two particles,
    and nothing else of them. *)
Lemma increment_ext c mu source source' p p' beta :
  pos source' = pos source -> vel source' = vel source ->
  pos p' = pos p -> vel p' = vel p ->
  increment c mu source' p' beta = increment c mu source p beta.
Proof.
  destruct source, source', p, p'. unfold pos, vel. cbn.
  intros [= -> -> ->] [= -> -> ->] [= -> -> ->] [= -> -> ->]. done.
Qed.

(** [correction] is the factor that the increments apply to the radial
    component. *)
Lemma increment_correction (c mu : F) source p beta :
  increment c mu source p beta
  = (fmul (a_rad mu source p beta)
       (fsub (fdiv (fmul (correction c (rdot source p)) (fsub (x p) (x source)))
                (dr source p))
             (fdiv (fsub (vx p) (vx source)) c)),
     fmul (a_rad mu source p beta)
       (fsub (fdiv (fmul (correction c (rdot source p)) (fsub (y p) (y source)))
                (dr source p))
             (fdiv (fsub (vy p) (vy source)) c)),
     fmul (a_rad mu source p beta)
       (fsub (fdiv (fmul (correction c (rdot source p)) (fsub (z p) (z source)))
                (dr source p))
             (fdiv (fsub (vz p) (vz source)) c))).
Proof. reflexivity. Qed.

Lemma same_inputs_refl p : same_inputs p p.
Proof. by repeat split. Qed.

Lemma same_inputs_add_acc p v : same_inputs (add_acc p v) p.
Proof. destruct p, v as [[v1 v2] v3]. by repeat split. Qed.

Lemma same_inputs_trans p q r :
  same_inputs p q -> same_inputs q r -> same_inputs p r.
Proof. unfold same_inputs. intuition congruence. Qed.

Lemma same_inputs_fold_add_acc (l : list (vec F)) s :
  same_inputs (fold_left add_acc l s) s.
Proof.
  revert s. induction l as [|v l IH]; intros s; [apply same_inputs_refl|].
  cbn. eapply same_inputs_trans; [apply IH|apply same_inputs_add_acc].
Qed.

(** The contribution of an index, between two arrays whose particles at
    that index differ at most in their accelerations. *)
Lemma increments_contribution_same_inputs c mu source source' source_index ps ps' k :
  pos source' = pos source -> vel source' = vel source ->
  (k <> source_index ->
     option_Forall2 same_inputs (index ps' k) (index ps k)) ->
  increments c mu source' (contribution source_index ps' k)
  = increments c mu source (contribution source_index ps k).
Proof.
  intros Hpos Hvel Hk. unfold contribution.
  destruct (Z.eqb_spec k source_index); [done|].
  destruct (Hk ltac:(done)) as [p' p (Hp & Hv & _ & Hap)|]; [|done].
  unfold rebx_search_param. rewrite Hap.
  destruct (search_entries (ap p) RAD_BETA); [cbn|done].
  by rewrite (increment_ext _ _ source source' p p').
Qed.

(** A change [T] of the array, acting as [t] on the source, commutes with
    the call when it keeps the length of the array, the inputs of the
    source and the increments of the indices of the loop, and when it
    commutes with the update of the source. *)
Lemma rebx_radiation_forces_transport
    (T : list (reb_particle F) -> list (reb_particle F))
    (t : reb_particle F -> reb_particle F) sim rad :
  length (T (particles sim)) = length (particles sim) ->
  index (T (particles sim)) (source_index (paramsPtr rad))
  = t <$> index (particles sim) (source_index (paramsPtr rad)) ->
  (forall s, m (t s) = m s) ->
  (forall s k,
     index (particles sim) (source_index (paramsPtr rad)) = Some s ->
     (0 <= k < N sim - N_var sim)%Z ->
     increments (c (paramsPtr rad)) (fmul (G sim) (m s)) (t s)
       (contribution (source_index (paramsPtr rad)) (T (particles sim)) k)
     = increments (c (paramsPtr rad)) (fmul (G sim) (m s)) s
         (contribution (source_index (paramsPtr rad)) (particles sim) k)) ->
  (forall s l,
     index (particles sim) (source_index (paramsPtr rad)) = Some s ->
     <[Z.to_nat (source_index (paramsPtr rad)) := fold_left add_acc l (t s)]>
       (T (particles sim))
     = T (<[Z.to_nat (source_index (paramsPtr rad)) := fold_left add_acc l s]>
            (particles sim))) ->
  rebx_radiation_forces (map_particles T sim) rad
  = map_particles T <$> rebx_radiation_forces sim rad.
Proof.
  intros Hlen Hsrc Hm Hinc Hcomm. rewrite !rebx_radiation_forces_eq. cbn.
  rewrite Hsrc.
  destruct (index (particles sim) _) as [s|] eqn:Hs; [cbn|done].
  destruct (int_sub (N sim) (N_var sim)) as [n|] eqn:Hn; [cbn|done].
  apply int_sub_Some in Hn as ->.
  rewrite (covered_length _ _ _ _ _ Hlen).
  destruct (covered _ _ _ _); [cbn|done].
  unfold map_particles. cbn. do 2 f_equal.
  rewrite Hm.
  rewrite (increments_contributors_ext _ _ s (t s) _ _ _ (particles sim)).
  { by apply Hcomm. }
  intros k Hk. apply Hinc; [done|lia].
Qed.

End Transport.

(** ** Changing one particle *)

Section UpdateAt.
Context {A : Type}.
Implicit Types (a : list A) (f : A -> A) (i j k : Z).

Lemma length_update_at f j a : length (update_at f j a) = length a.
Proof. unfold update_at. destruct (j <? 0)%Z; [done|apply length_alter]. Qed.

Lemma index_update_at_eq f j a : index (update_at f j a) j = f <$> index a j.
Proof.
  unfold update_at, index. destruct (j <? 0)%Z; [done|].
  apply list_lookup_alter_eq.
Qed.

Lemma index_update_at_ne f j a k : k <> j -> index (update_at f j a) k = index a k.
Proof.
  intros Hne. unfold update_at, index.
  destruct (Z.ltb_spec j 0); [done|]. destruct (Z.ltb_spec k 0); [done|].
  apply list_lookup_alter_ne. lia.
Qed.

Lemma update_at_insert_eq f k a v w :
  index a k = Some w ->
  update_at f k (<[Z.to_nat k := v]> a) = <[Z.to_nat k := f v]> a.
Proof.
  intros [Hk Hw]%index_Some. unfold update_at.
  destruct (Z.ltb_spec k 0); [lia|].
  apply list_eq. intros i. destruct (decide (i = Z.to_nat k)) as [->|Hne].
  - rewrite list_lookup_alter_eq, !list_lookup_insert_eq; [done|..];
      by eapply lookup_lt_Some.
  - by rewrite list_lookup_alter_ne, !list_lookup_insert_ne.
Qed.

Lemma insert_update_at_eq f k a v :
  <[Z.to_nat k := v]> (update_at f k a) = <[Z.to_nat k := v]> a.
Proof.
  unfold update_at. destruct (k <? 0)%Z; [done|].
  apply list_eq. intros i. destruct (decide (i = Z.to_nat k)) as [->|Hne].
  - destruct (decide (Z.to_nat k < length a)%nat).
    + by rewrite !list_lookup_insert_eq by (by rewrite ?length_alter).
    + rewrite !lookup_ge_None_2; [done|..];
        rewrite ?length_insert, ?length_alter; lia.
  - by rewrite !list_lookup_insert_ne, list_lookup_alter_ne.
Qed.

Lemma update_at_insert_ne f j k a v :
  (0 <= k)%Z -> j <> k ->
  update_at f j (<[Z.to_nat k := v]> a) = <[Z.to_nat k := v]> (update_at f j a).
Proof.
  intros Hk Hne. unfold update_at. destruct (Z.ltb_spec j 0); [done|].
  apply list_eq. intros i.
  destruct (decide (i = Z.to_nat k)) as [->|Hik].
  - rewrite list_lookup_alter_ne by lia.
    destruct (decide (Z.to_nat k < length a)%nat).
    + by rewrite !list_lookup_insert_eq by (by rewrite ?length_alter).
    + rewrite !lookup_ge_None_2; [done|..];
        rewrite ?length_insert, ?length_alter; lia.
  - rewrite list_lookup_insert_ne by done.
    destruct (decide (i = Z.to_nat j)) as [->|Hij].
    + by rewrite !list_lookup_alter_eq, list_lookup_insert_ne.
    + by rewrite !list_lookup_alter_ne, list_lookup_insert_ne.
Qed.

End UpdateAt.

(** ** Skipped particles and the frame of the call *)

Section Skips.
Context {F : Type} `{Arith F}.
Implicit Types (p q s source : reb_particle F) (ps : list (reb_particle F)).
Implicit Types (sim : reb_simulation F) (rad : rebx_effect F).

Lemma fold_add_acc_set_ap (l : list (vec F)) s tags :
  fold_left add_acc l (set_ap s tags) = set_ap (fold_left add_acc l s) tags.
Proof.
  revert s. induction l as [|v l IH]; intros s; [done|].
  cbn. rewrite <- IH. f_equal. by destruct s, v as [[v1 v2] v3].
Qed.

(** A change of a particle other than the source commutes with the call
    when it keeps the contribution of every index of the loop. *)
Lemma update_at_other f j sim rad :
  j <> source_index (paramsPtr rad) ->
  (forall k, (0 <= k < N sim - N_var sim)%Z ->
     contribution (source_index (paramsPtr rad)) (update_at f j (particles sim)) k
     = contribution (source_index (paramsPtr rad)) (particles sim) k) ->
  rebx_radiation_forces (map_particles (update_at f j) sim) rad
  = map_particles (update_at f j) <$> rebx_radiation_forces sim rad.
Proof.
  intros Hne Hk.
  apply (rebx_radiation_forces_transport (update_at f j) (fun p => p)).
  - apply length_update_at.
  - rewrite index_update_at_ne by done. by destruct (index _ _).
  - done.
  - intros s k _ Hrange. by rewrite Hk.
  - intros s l [Hnn _]%index_Some. by rewrite update_at_insert_ne.
Qed.

(** A change of the parameter store of the source commutes with the call. *)
Lemma retag_source sim rad tags :
  rebx_radiation_forces (retag (source_index (paramsPtr rad)) tags sim) rad
  = retag (source_index (paramsPtr rad)) tags <$> rebx_radiation_forces sim rad.
Proof.
  apply (rebx_radiation_forces_transport _ (fun p => set_ap p tags)).
  - apply length_update_at.
  - apply index_update_at_eq.
  - by intros [].
  - intros s k _ _. apply increments_contribution_same_inputs; [by destruct s..|].
    intros Hk. rewrite index_update_at_ne by done.
    destruct (index (particles sim) k); constructor. apply same_inputs_refl.
  - intros s l Hs. rewrite insert_update_at_eq, fold_add_acc_set_ap.
    by erewrite update_at_insert_eq.
Qed.

End Skips.

Section Claims_skips.
Context {F : Type} `{Arith F}.
Implicit Types (p q s source : reb_particle F) (ps : list (reb_particle F)).
Implicit Types (sim : reb_simulation F) (rad : rebx_effect F).

(** The contributors are the particles the claims speak of: those at an
    index of the loop other than the source's, with a beta coefficient. *)
Lemma elem_of_contributors source_index n i ps p beta :
  (p, beta) ∈ contributors source_index n i ps
  <-> exists k, (i <= k < i + Z.of_nat n)%Z /\ k <> source_index
              /\ index ps k = Some p /\ rebx_search_param p RAD_BETA = Some beta.
Proof.
  revert i. induction n as [|n IH]; intros i.
  - cbn. split; [by intros ?%elem_of_nil|]. intros (k & ? & _). lia.
  - cbn [contributors]. rewrite elem_of_app, IH. unfold contribution. split.
    + intros [Hhd|(k & ? & ?)]; [|exists k; split; [lia|done]].
      destruct (Z.eqb_spec i source_index); [by apply elem_of_nil in Hhd|].
      destruct (index ps i) as [p'|] eqn:Hp; [|by apply elem_of_nil in Hhd].
      destruct (rebx_search_param p' RAD_BETA) as [b|] eqn:Hb;
        [|by apply elem_of_nil in Hhd].
      apply list_elem_of_singleton in Hhd as [= -> ->].
      exists i. repeat split; [lia|lia|done..].
    + intros (k & Hk & Hne & Hp & Hb).
      destruct (decide (k = i)) as [->|Hki].
      * left. destruct (Z.eqb_spec i source_index); [done|].
        rewrite Hp, Hb. by apply list_elem_of_singleton.
      * right. exists k. split; [lia|done].
Qed.

(** C2: a particle whose beta coefficient lookup returns absent is skipped
    without an error: the iteration of the loop at its index leaves the
    array as it is, and nothing of the particle reaches the result: the call
    commutes with replacing it by any other particle without a beta
    coefficient. *)
Theorem C2_absent_beta_is_skipped sim rad j p :
  index (particles sim) j = Some p ->
  rebx_search_param p RAD_BETA = None ->
  (forall c source mu ps,
     index ps j = Some p ->
     loop_body c (source_index (paramsPtr rad)) source mu j ps = Some ps)
  /\ (forall q,
        j <> source_index (paramsPtr rad) ->
        rebx_search_param q RAD_BETA = None ->
        rebx_radiation_forces (put j q sim) rad
        = put j q <$> rebx_radiation_forces sim rad).
Proof.
  intros Hp Hnone. split.
  - intros c0 source mu ps Hps. unfold loop_body.
    destruct (j =? source_index (paramsPtr rad))%Z; [done|].
    rewrite Hps. cbn. by rewrite Hnone.
  - intros q Hne Hq. apply update_at_other; [done|].
    intros k _. destruct (decide (k = j)) as [->|Hkj].
    + unfold contribution. rewrite index_update_at_eq, Hp. cbn.
      rewrite Hq, Hnone. done.
    + apply contribution_index. intros _. by apply index_update_at_ne.
Qed.

(** C3: a successful call changes nothing but the acceleration of the
    particle at [source_index]: G, N and N_var are kept, the array keeps its
    length, every other particle is unchanged, and the source keeps its
    position, velocity, mass and parameters. *)
Theorem C3_frame sim rad sim' :
  rebx_radiation_forces sim rad = Some sim' ->
  G sim' = G sim /\ N sim' = N sim /\ N_var sim' = N_var sim
  /\ length (particles sim') = length (particles sim)
  /\ (forall j, j <> source_index (paramsPtr rad) ->
        index (particles sim') j = index (particles sim) j)
  /\ (exists s s',
        index (particles sim) (source_index (paramsPtr rad)) = Some s
        /\ index (particles sim') (source_index (paramsPtr rad)) = Some s'
        /\ same_inputs s' s).
Proof.
  intros (s & Hs & _ & _ & ->)%rebx_radiation_forces_Some. cbn.
  repeat split.
  - apply length_insert.
  - intros j Hj. apply index_insert_ne; [|done]. by apply index_Some in Hs as [? _].
  - exists s, (fold_left add_acc (applied_increments sim rad) s).
    split; [done|]. split; [by eapply index_insert_eq|].
    apply same_inputs_fold_add_acc.
Qed.

(** C4: the particle at [source_index] is skipped whatever its parameters:
    its iteration leaves the array as it is, and the call commutes with
    giving the source any parameter store, with or without a beta
    coefficient. *)
Theorem C4_source_is_skipped sim rad :
  (forall c source mu ps,
     loop_body c (source_index (paramsPtr rad)) source mu
       (source_index (paramsPtr rad)) ps = Some ps)
  /\ (forall tags,
        rebx_radiation_forces (retag (source_index (paramsPtr rad)) tags sim) rad
        = retag (source_index (paramsPtr rad)) tags <$> rebx_radiation_forces sim rad).
Proof.
  split.
  - intros c0 source mu ps. unfold loop_body. by rewrite Z.eqb_refl.
  - apply retag_source.
Qed.

(** C5: the loop processes the indices from 0 to N - N_var - 1 only: every
    contributor has such an index, and the call commutes with giving any
    parameter store to a particle at an index from N - N_var on, and with
    replacing such a particle, other than the source, by any other. *)
Theorem C5_variational_particles_ignored sim rad j :
  (N sim - N_var sim <= j)%Z ->
  (forall p beta,
     (p, beta) ∈ contributors (source_index (paramsPtr rad))
                  (Z.to_nat (N sim - N_var sim)) 0 (particles sim) ->
     exists k, (0 <= k < N sim - N_var sim)%Z /\ index (particles sim) k = Some p)
  /\ (forall tags,
        rebx_radiation_forces (retag j tags sim) rad
        = retag j tags <$> rebx_radiation_forces sim rad)
  /\ (forall q,
        j <> source_index (paramsPtr rad) ->
        rebx_radiation_forces (put j q sim) rad
        = put j q <$> rebx_radiation_forces sim rad).
Proof.
  intros Hj.
  assert (Hout : forall f, j <> source_index (paramsPtr rad) ->
    rebx_radiation_forces (map_particles (update_at f j) sim) rad
    = map_particles (update_at f j) <$> rebx_radiation_forces sim rad).
  { intros f Hne. apply update_at_other; [done|].
    intros k Hk. apply contribution_index. intros _.
    apply index_update_at_ne. lia. }
  split; [|split].
  - intros p beta (k & Hk & _ & Hp & _)%elem_of_contributors.
    exists k. split; [lia|done].
  - intros tags. destruct (decide (j = source_index (paramsPtr rad))) as [->|Hne].
    + apply retag_source.
    + by apply Hout.
  - intros q Hne. by apply Hout.
Qed.

End Claims_skips.

(** ** Instances on the scenarios *)

(** C2 on [rock_sim], whose particle 2 has no beta coefficient. *)
Lemma C2_witness :
  index (particles rock_sim) 2 = Some untagged_rock
  /\ rebx_search_param untagged_rock RAD_BETA = None
  /\ loop_body 10000%float 0 scenario_source 1%float 2 (particles rock_sim)
     = Some (particles rock_sim).
Proof.
  assert (Hp : index (particles rock_sim) 2 = Some untagged_rock) by reflexivity.
  assert (Hn : rebx_search_param untagged_rock RAD_BETA = None) by reflexivity.
  split; [exact Hp|]. split; [exact Hn|].
  exact (proj1 (C2_absent_beta_is_skipped rock_sim scenario_rad 2 untagged_rock Hp Hn)
           10000%float scenario_source 1%float (particles rock_sim) Hp).
Defined.

(** C3 on the scenario of the specification. *)
Lemma C3_witness :
  rebx_radiation_forces scenario_sim scenario_rad
  = Some (mk_simulation 1%float 2 0 [scenario_source_after; scenario_dust])
  /\ index [scenario_source_after; scenario_dust] 1 = index (particles scenario_sim) 1.
Proof.
  assert (Hrun : rebx_radiation_forces scenario_sim scenario_rad
    = Some (mk_simulation 1%float 2 0 [scenario_source_after; scenario_dust]))
    by (vm_compute; reflexivity).
  split; [exact Hrun|].
  destruct (C3_frame scenario_sim scenario_rad _ Hrun) as (_ & _ & _ & _ & Hother & _).
  apply (Hother 1%Z). discriminate.
Defined.

(** In binary64, the untagged particle of [rock_sim] and the variational
    particle of [variational_sim] leave the result of the scenario as it
    is: the source gets (0.01, 0, 0) once. *)
Lemma rock_sim_result :
  rebx_radiation_forces rock_sim scenario_rad
  = Some (mk_simulation 1%float 3 0 [scenario_source_after; scenario_dust; untagged_rock]).
Proof. vm_compute. reflexivity. Qed.

Lemma variational_sim_result :
  rebx_radiation_forces variational_sim scenario_rad
  = Some (mk_simulation 1%float 3 1 [scenario_source_after; scenario_dust; scenario_dust]).
Proof. vm_compute. reflexivity. Qed.

(** A source index outside of the array, or more particles counted than
    the array holds, make the call undefined. *)
Lemma out_of_range_is_undefined :
  rebx_radiation_forces scenario_sim (mk_effect (mk_params 10000%float 2)) = None
  /\ rebx_radiation_forces scenario_sim (mk_effect (mk_params 10000%float (-1))) = None
  /\ rebx_radiation_forces (mk_simulation 1%float 3 0 [scenario_source; scenario_dust])
       scenario_rad = None.
Proof. repeat split; vm_compute; reflexivity. Qed.

(** C5 on [variational_sim], whose particle 2 is variational. *)
Lemma C5_witness :
  (N variational_sim - N_var variational_sim <= 2)%Z
  /\ rebx_radiation_forces (retag 2 [] variational_sim) scenario_rad
     = retag 2 [] <$> rebx_radiation_forces variational_sim scenario_rad.
Proof.
  assert (Hj : (N variational_sim - N_var variational_sim <= 2)%Z) by (cbn; lia).
  split; [exact Hj|].
  exact (proj1 (proj2 (C5_variational_particles_ignored
                         variational_sim scenario_rad 2 Hj)) []).
Defined.

(** ** Exact arithmetic *)

Section Exact.
Local Open Scope R_scope.
Implicit Types (p q s source : reb_particle R) (ps : list (reb_particle R)).
Implicit Types (sim : reb_simulation R) (rad : rebx_effect R) (u v w : vec R).

Lemma vadd_assoc u v w : vadd (vadd u v) w = vadd u (vadd v w).
Proof.
  destruct u as [[u1 u2] u3], v as [[v1 v2] v3], w as [[w1 w2] w3]. cbn.
  f_equal; [f_equal|]; ring.
Qed.


Lemma vadd_zero u : vadd u (0, 0, 0) = u.
Proof. destruct u as [[u1 u2] u3]. cbn. f_equal; [f_equal|]; ring. Qed.

Lemma vsum_cons v (l : list (vec R)) : vsum (v :: l) = vadd v (vsum l).
Proof. reflexivity. Qed.


Lemma acc_add_acc s v : acc (add_acc s v) = vadd (acc s) v.
Proof. by destruct s, v as [[v1 v2] v3]. Qed.

(** In exact arithmetic the accumulation is a sum. *)
Lemma acc_fold_add_acc (l : list (vec R)) s :
  acc (fold_left add_acc l s) = vadd (acc s) (vsum l).
Proof.
  revert s. induction l as [|v l IH]; intros s.
  - change (acc s = vadd (acc s) (0, 0, 0)). by rewrite vadd_zero.
  - change (acc (fold_left add_acc l (add_acc s v)) = vadd (acc s) (vsum (v :: l))).
    by rewrite IH, acc_add_acc, vsum_cons, vadd_assoc.
Qed.

(** The increment of the code is the vector of the specification. *)
Lemma increment_spec_vector G c source p beta :
  increment c (G * m source) source p beta = spec_vector G c source p beta.
Proof.
  destruct source, p.
  unfold increment, spec_vector, spec_a_rad, correction, spec_rdot, spec_dr, spec_d,
    spec_dv, norm, a_rad, rdot, dr. cbn.
  rewrite Rmult_1_r. f_equal; [f_equal|]; unfold Rdiv; ring.
Qed.

(** The acceleration of the source after a successful call. *)
Lemma acc_at_source_after sim rad sim' s :
  index (particles sim) (source_index (paramsPtr rad)) = Some s ->
  rebx_radiation_forces sim rad = Some sim' ->
  acc_at sim' (source_index (paramsPtr rad))
  = Some (vadd (acc s) (vsum (applied_increments sim rad))).
Proof.
  intros Hs (s0 & Hs0 & _ & _ & ->)%rebx_radiation_forces_Some.
  rewrite Hs in Hs0. injection Hs0 as <-.
  unfold acc_at. cbn. erewrite index_insert_eq by done. cbn.
  by rewrite acc_fold_add_acc.
Qed.


End Exact.

(** ** The scenario of the specification *)

Section Scenario.
Local Open Scope R_scope.

Lemma exact_scenario_defined : is_Some (rebx_radiation_forces exact_sim exact_rad).
Proof.
  apply rebx_radiation_forces_defined; unfold INT_MAX; cbn; lia.
Qed.

Lemma exact_dust_dr : spec_dr exact_source exact_dust = 1.
Proof.
  unfold spec_dr, norm, spec_d. cbn.
  replace ((1 - 0) * (1 - 0) + (0 - 0) * (0 - 0) + (0 - 0) * (0 - 0)) with 1 by ring.
  apply sqrt_1.
Qed.

(** C7: in exact arithmetic, when the only contributor has the velocity of
    the source, the call adds beta*G*M/dr^2 * (d/dr) to the acceleration of
    the source, with no term in the velocities; and in binary64 the call on
    the scenario of the specification (source at rest at the origin with
    mass 1, G = 1, c = 10000, one tagged particle at (1,0,0) at rest with
    beta = 0.01) leaves the source with the acceleration (0.01, 0, 0). *)
Theorem C7_particle_at_rest :
  (forall (sim : reb_simulation R) (rad : rebx_effect R) sim' s p beta,
     index (particles sim) (source_index (paramsPtr rad)) = Some s ->
     contributors (source_index (paramsPtr rad))
       (Z.to_nat (N sim - N_var sim)) 0 (particles sim) = [(p, beta)] ->
     vel p = vel s ->
     rebx_radiation_forces sim rad = Some sim' ->
     acc_at sim' (source_index (paramsPtr rad))
     = Some (vadd (acc s)
               (scale (beta * G sim * m s / (spec_dr s p) ^ 2)
                  (vdiv (spec_d s p) (spec_dr s p)))))
  /\ rebx_radiation_forces scenario_sim scenario_rad
     = Some (mk_simulation 1%float 2 0 [scenario_source_after; scenario_dust])
  /\ acc scenario_source_after = (0.01, 0, 0)%float.
Proof.
  split; [|split; [vm_compute; reflexivity|reflexivity]].
  intros sim rad sim' s p beta Hs Hone Hvel Hrun.
  rewrite (acc_at_source_after _ _ _ _ Hs Hrun).
  unfold applied_increments. rewrite Hs, Hone. do 2 f_equal.
  unfold increments. cbn [map fst snd]. rewrite vsum_cons.
  change (vsum []) with ((0, 0, 0) : vec R). rewrite vadd_zero.
  rewrite increment_spec_vector.
  destruct s, p. unfold vel in Hvel. cbn in Hvel. injection Hvel as -> -> ->.
  unfold spec_vector, spec_a_rad, correction, spec_rdot, spec_dv, spec_dr, norm,
    spec_d. cbn.
  f_equal; [f_equal|]; unfold Rdiv; ring.
Qed.

End Scenario.


(** C7 on the scenario in exact arithmetic: the source gets (1/100, 0, 0). *)
Lemma C7_witness :
  exists sim',
    rebx_radiation_forces exact_sim exact_rad = Some sim'
    /\ acc_at sim' 0 = Some (1 / 100, 0, 0)%R.
Proof.
  destruct exact_scenario_defined as [sim' Hrun]. exists sim'. split; [exact Hrun|].
  change (acc_at sim' 0) with (acc_at sim' (source_index (paramsPtr exact_rad))).
  rewrite (proj1 C7_particle_at_rest exact_sim exact_rad sim' exact_source exact_dust
             (1 / 100)%R eq_refl eq_refl eq_refl Hrun).
  rewrite exact_dust_dr. cbn. do 2 f_equal; [f_equal|]; lra.
Defined.

(** ** Coincident positions *)


(** ** Offsets on the accelerations *)

Lemma index_imap {A B : Type} (h : Z -> A -> B) (a : list A) i :
  index (imap (fun k => h (Z.of_nat k)) a) i = h i <$> index a i.
Proof.
  unfold index. destruct (Z.ltb_spec i 0); [done|].
  rewrite list_lookup_imap. by rewrite Z2Nat.id.
Qed.

Section Offsets.
Context {F : Type} `{Arith F}.
Implicit Types (sim : reb_simulation F) (rad : rebx_effect F).

(** The contribution of an index is the same before and after a change of
    the accelerations. *)
Lemma increments_contribution_shift c mu (s : reb_particle F) (off : Z -> vec F)
    source_index ps k :
  increments c mu (add_acc s (off source_index))
    (contribution source_index
       (imap (fun k p => add_acc p (off (Z.of_nat k))) ps) k)
  = increments c mu s (contribution source_index ps k).
Proof.
  apply increments_contribution_same_inputs; [by destruct s, (off _) as [[??]?]..|].
  intros _. rewrite (index_imap (fun i p => add_acc p (off i))).
  destruct (index ps k); constructor. apply same_inputs_add_acc.
Qed.

(** In any arithmetic, the increments of a call do not depend on the
    accelerations the particles have before it. *)
Lemma applied_increments_shift sim rad (off : Z -> vec F) :
  applied_increments (shift off sim) rad = applied_increments sim rad.
Proof.
  unfold applied_increments, shift. cbn.
  rewrite (index_imap (fun i p => add_acc p (off i))).
  destruct (index (particles sim) _) as [s|]; [cbn|done].
  replace (m (add_acc s (off (source_index (paramsPtr rad))))) with (m s)
    by (by destruct s, (off _) as [[??]?]).
  apply increments_contributors_ext. intros k _.
  apply increments_contribution_shift.
Qed.

End Offsets.

Section ExactOffsets.
Local Open Scope R_scope.

Lemma add_acc_swap (s : reb_particle R) (u v : vec R) :
  add_acc (add_acc s u) v = add_acc (add_acc s v) u.
Proof.
  destruct s, u as [[u1 u2] u3], v as [[v1 v2] v3]. unfold add_acc. cbn.
  f_equal; ring.
Qed.

Lemma fold_add_acc_shift (l : list (vec R)) (s : reb_particle R) (o : vec R) :
  fold_left add_acc l (add_acc s o) = add_acc (fold_left add_acc l s) o.
Proof.
  revert s. induction l as [|v l IH]; intros s; [done|].
  cbn. by rewrite add_acc_swap, IH.
Qed.

(** C10, amended: the increments of a call do not depend on the
    accelerations the particles have before it, in any arithmetic; and in
    exact arithmetic, adding an offset to the accelerations before the call
    gives the result of the call shifted by that offset. *)
Theorem C10_offset_commutes_exact :
  (forall (F : Type) (A : Arith F) (sim : reb_simulation F) rad (off : Z -> vec F),
     applied_increments (shift off sim) rad = applied_increments sim rad)
  /\ (forall (sim : reb_simulation R) rad (off : Z -> vec R),
        rebx_radiation_forces (shift off sim) rad
        = shift off <$> rebx_radiation_forces sim rad).
Proof.
  split; [intros; apply applied_increments_shift|].
  intros sim rad off.
  apply (rebx_radiation_forces_transport _
           (fun s => add_acc s (off (source_index (paramsPtr rad))))).
  - apply length_imap.
  - apply (index_imap (fun i p => add_acc p (off i))).
  - intros s. by destruct s, (off _) as [[??]?].
  - intros s k _ _. apply increments_contribution_shift.
  - intros s l [Hnn Hs]%index_Some. apply list_eq. intros i.
    rewrite list_lookup_imap.
    destruct (decide (i = Z.to_nat (source_index (paramsPtr rad)))) as [->|Hne].
    + rewrite !list_lookup_insert_eq
        by (rewrite ?length_imap; by eapply lookup_lt_Some).
      cbn. by rewrite Z2Nat.id, fold_add_acc_shift.
    + by rewrite !list_lookup_insert_ne, list_lookup_imap.
Qed.

End ExactOffsets.

(** C10, as stated, fails in binary64: on [unit_sim] the two increments are
    (1,0,0) each; with the offset 2^53 added first the sums round back to
    2^53 twice, with the offset added last the result is 2^53 + 2. *)
Lemma C10_counterexample :
  (rebx_radiation_forces (shift big_offset unit_sim) scenario_rad
     ≫= fun s => acc_at s 0)
  = Some (0x1p53, 0, 0)%float
  /\ ((shift big_offset <$> rebx_radiation_forces unit_sim scenario_rad)
        ≫= fun s => acc_at s 0)
     = Some (0x1.0000000000001p53, 0, 0)%float
  /\ rebx_radiation_forces (shift big_offset unit_sim) scenario_rad
     <> shift big_offset <$> rebx_radiation_forces unit_sim scenario_rad.
Proof.
  split; [vm_compute; reflexivity|]. split; [vm_compute; reflexivity|].
  intros Heq.
  pose proof (f_equal (fun r => match r ≫= fun s => acc_at s 0 with
                                | Some (a, _, _) => PrimFloat.eqb a 0x1p53
                                | None => false
                                end) Heq) as Hax.
  vm_compute in Hax. discriminate Hax.
Qed.

(** ** Splitting the tagged particles in two groups *)

Section Groups.
Context {F : Type} `{Arith F}.
Implicit Types (p q s source : reb_particle F) (ps : list (reb_particle F)).
Implicit Types (sim : reb_simulation F) (rad : rebx_effect F).






(** The call succeeds or fails with the shape of the simulation: the counts
    and the length of the array. *)
Lemma rebx_radiation_forces_is_Some sim rad :
  is_Some (rebx_radiation_forces sim rad)
  <-> is_Some (index (particles sim) (source_index (paramsPtr rad)))
      /\ in_int (N sim - N_var sim) = true
      /\ covered (source_index (paramsPtr rad)) (Z.to_nat (N sim - N_var sim)) 0
           (particles sim) = true.
Proof.
  rewrite rebx_radiation_forces_eq. unfold int_sub.
  destruct (index (particles sim) _) as [s|]; cbn.
  - destruct (in_int _); cbn.
    + destruct (covered _ _ _ _); cbn; split;
        try (intros [? [=]]); try (intros (_ & _ & [=])); eauto.
    + split; [intros [? [=]]|intros (_ & [=] & _)].
  - split; [intros [? [=]]|intros ([? [=]] & _)].
Qed.



End Groups.

Section ExactGroups.
Local Open Scope R_scope.
Implicit Types (p q s source : reb_particle R) (ps : list (reb_particle R)).
Implicit Types (sim : reb_simulation R) (rad : rebx_effect R) (u v w : vec R).





End ExactGroups.

Section Additivity.
Local Open Scope R_scope.
Implicit Types (p q s source : reb_particle R) (ps : list (reb_particle R)).
Implicit Types (sim : reb_simulation R) (rad : rebx_effect R) (u v w : vec R).









End Additivity.




(** ** The correction factor *)

Section CorrectionFactor.
Local Open Scope R_scope.

(** C9, amended: in exact arithmetic, for two particles at the same place
    whose velocities relative to the source are opposite, the radial
    velocities of the code are opposite, and the correction factors
    1 - rdot/c deviate from 1 by opposite amounts. *)
Theorem C9_correction_symmetric (c : R) (source p p' : reb_particle R) :
  pos p' = pos p ->
  spec_dv source p' = scale (-1) (spec_dv source p) ->
  rdot source p' = - rdot source p
  /\ correction c (rdot source p') - 1 = - (correction c (rdot source p) - 1).
Proof.
  intros Hpos Hdv.
  assert (Hr : rdot source p' = - rdot source p).
  { destruct source, p, p'. unfold pos, spec_dv, vel in *. cbn in *.
    injection Hpos as -> -> ->. injection Hdv as Hx Hy Hz.
    unfold rdot, dr. cbn. rewrite Hx, Hy, Hz. unfold Rdiv. ring. }
  split; [done|]. rewrite Hr. unfold correction. cbn. unfold Rdiv. ring.
Qed.

End CorrectionFactor.

(** C9 on a particle receding from, or approaching, the source at speed 2. *)
Lemma C9_witness :
  rdot exact_source approaching_dust = (- rdot exact_source receding_dust)%R
  /\ (correction 10000 (rdot exact_source approaching_dust) - 1
      = - (correction 10000 (rdot exact_source receding_dust) - 1))%R.
Proof.
  apply (C9_correction_symmetric 10000%R exact_source receding_dust approaching_dust).
  - reflexivity.
  - cbn. f_equal; [f_equal|]; lra.
Defined.

(** C9, as stated, fails in binary64: with c = 2^53 and a particle at
    (1,0,0) receding from or approaching the source at speed 1, rdot is 1
    and -1, and the factors 1 - rdot/c are 1 - 2^-53 (a binary64 number)
    and 1 (1 + 2^-53 rounds to 1): they deviate from 1 by -2^-53 and by
    0. *)
Lemma C9_counterexample :
  pos approaching64 = pos receding64
  /\ rdot scenario_source receding64 = 1%float
  /\ rdot scenario_source approaching64 = (-1)%float
  /\ correction 0x1p53%float (rdot scenario_source receding64) = 0x1.fffffffffffffp-1%float
  /\ correction 0x1p53%float (rdot scenario_source approaching64) = 1%float
  /\ PrimFloat.sub (correction 0x1p53%float (rdot scenario_source approaching64)) 1
     <> PrimFloat.opp
          (PrimFloat.sub (correction 0x1p53%float (rdot scenario_source receding64)) 1).
Proof.
  repeat split; try (vm_compute; reflexivity).
  intros Heq.
  pose proof (f_equal (fun d => PrimFloat.eqb d 0) Heq) as Hdev.
  vm_compute in Hdev. discriminate Hdev.
Qed.

(** The same happens with the c = 10000 of the scenario, for instance at
    the radial velocities 7 and -7. *)
Lemma correction_asymmetric_10000 :
  PrimFloat.sub (correction 10000%float (-7)%float) 1 = 0.00069999999999992291%float
  /\ PrimFloat.sub (correction 10000%float 7%float) 1 = (-0.00070000000000003393)%float.
Proof. split; vm_compute; reflexivity. Qed.

(** ** Bounds, empty work and repeated calls *)

Section Bounds.
Context {F : Type} `{Arith F}.
Implicit Types (p q s source : reb_particle F) (ps : list (reb_particle F)).
Implicit Types (sim : reb_simulation F) (rad : rebx_effect F).

(** X1: the call is defined (no read or write outside of the array, no
    signed overflow) exactly when [source_index] is an index of the array,
    N - N_var is an [int], and N - N_var is at most the length of the
    array. *)
Theorem defined_iff_in_bounds sim rad :
  is_Some (rebx_radiation_forces sim rad)
  <-> (0 <= source_index (paramsPtr rad) < Z.of_nat (length (particles sim)))%Z
      /\ (INT_MIN <= N sim - N_var sim <= INT_MAX)%Z
      /\ (N sim - N_var sim <= Z.of_nat (length (particles sim)))%Z.
Proof.
  rewrite rebx_radiation_forces_is_Some, index_is_Some.
  unfold in_int. rewrite andb_true_iff, !Z.leb_le.
  split.
  - intros (Hsrc & Hint & Hcov). split; [done|]. split; [done|].
    apply (covered_from 0) in Hcov; [|done..]. lia.
  - intros (Hsrc & Hint & Hlen). split; [done|]. split; [done|].
    apply (covered_from 0); [done..|]. lia.
Qed.

(** X2: when no particle at an index below N - N_var, the source excepted,
    has a beta coefficient, a defined call returns the simulation as it
    is, in any arithmetic. *)
Theorem no_beta_is_identity sim rad :
  is_Some (rebx_radiation_forces sim rad) ->
  (forall i p, (0 <= i < N sim - N_var sim)%Z -> i <> source_index (paramsPtr rad) ->
     index (particles sim) i = Some p -> rebx_search_param p RAD_BETA = None) ->
  rebx_radiation_forces sim rad = Some sim.
Proof.
  intros [sim' Hrun] Hnone. rewrite Hrun. f_equal.
  destruct (rebx_radiation_forces_Some _ _ _ Hrun) as (s & Hs & _ & _ & ->).
  unfold applied_increments. rewrite Hs.
  rewrite (elem_of_nil_inv (contributors _ _ _ _)).
  - cbn. unfold map_particles. rewrite list_insert_id; [by destruct sim|].
    by apply index_Some in Hs as [_ ?].
  - intros [p beta] (k & Hk & Hne & Hp & Hb)%elem_of_contributors.
    rewrite (Hnone k p) in Hb; [done|lia|done..].
Qed.


(** X4: of a particle other than the source, the call reads the position,
    the velocity and the parameters only: replacing it by a particle that
    may differ in mass and acceleration commutes with the call, in any
    arithmetic. *)
Theorem other_particle_mass_unread sim rad j p q :
  j <> source_index (paramsPtr rad) ->
  index (particles sim) j = Some p ->
  pos q = pos p -> vel q = vel p -> ap q = ap p ->
  rebx_radiation_forces (put j q sim) rad = put j q <$> rebx_radiation_forces sim rad.
Proof.
  intros Hne Hp Hpos Hvel Hap.
  apply (rebx_radiation_forces_transport (update_at (fun _ => q) j) (fun s => s)).
  - apply length_update_at.
  - rewrite index_update_at_ne by done.
    by destruct (index (particles sim) (source_index (paramsPtr rad))).
  - done.
  - intros s k _ _. destruct (decide (k = j)) as [Hkj|Hkj].
    + subst k. unfold contribution.
      destruct (Z.eqb_spec j (source_index (paramsPtr rad))); [done|].
      rewrite index_update_at_eq, Hp. cbn. unfold rebx_search_param. rewrite Hap.
      destruct (search_entries (ap p) RAD_BETA) as [beta|]; [|done].
      unfold increments. cbn. by rewrite (increment_ext _ _ s s p q).
    + f_equal. apply contribution_index. intros _. by apply index_update_at_ne.
  - intros s l [Hnn _]%index_Some. by rewrite update_at_insert_ne.
Qed.

End Bounds.

(** X2 on [bare_sim], whose only other particle has no beta coefficient. *)
Lemma no_beta_is_identity_witness :
  rebx_radiation_forces bare_sim scenario_rad = Some bare_sim.
Proof.
  apply no_beta_is_identity.
  - eexists. vm_compute. reflexivity.
  - intros i p Hi Hne Hp. cbn in Hi, Hne.
    assert (i = 1%Z) as -> by lia. by injection Hp as <-.
Defined.


(** X4 on the scenario, with [heavy_dust] in the place of the tagged
    particle. *)
Lemma other_particle_mass_unread_witness :
  rebx_radiation_forces (put 1 heavy_dust scenario_sim) scenario_rad
  = put 1 heavy_dust <$> rebx_radiation_forces scenario_sim scenario_rad.
Proof.
  apply (other_particle_mass_unread scenario_sim scenario_rad 1 scenario_dust heavy_dust);
    [discriminate|reflexivity..].
Defined.

(** ** Changes of frame and of units, in exact arithmetic *)

Lemma index_fmap {A B : Type} (f : A -> B) (a : list A) i :
  index (f <$> a) i = f <$> index a i.
Proof. unfold index. destruct (i <? 0)%Z; [done|]. apply list_lookup_fmap. Qed.

(** An increment reads the particle and the source through the differences
    of their positions and of their velocities only. *)
Lemma increment_differences {F : Type} `{Arith F} (c mu : F)
    (s s' p p' : reb_particle F) beta :
  fsub (x p') (x s') = fsub (x p) (x s) ->
  fsub (y p') (y s') = fsub (y p) (y s) ->
  fsub (z p') (z s') = fsub (z p) (z s) ->
  fsub (vx p') (vx s') = fsub (vx p) (vx s) ->
  fsub (vy p') (vy s') = fsub (vy p) (vy s) ->
  fsub (vz p') (vz s') = fsub (vz p) (vz s) ->
  increment c mu s' p' beta = increment c mu s p beta.
Proof.
  unfold increment, a_rad, rdot, dr. by intros -> -> -> -> -> ->.
Qed.

Section Frames.
Local Open Scope R_scope.
Implicit Types (p q s source : reb_particle R) (ps : list (reb_particle R)).
Implicit Types (sim : reb_simulation R) (rad : rebx_effect R) (a u v w : vec R).

Lemma increment_boost c mu a u s p beta :
  increment c mu (boost a u s) (boost a u p) beta = increment c mu s p beta.
Proof.
  apply increment_differences;
    destruct s, p, a as [[a1 a2] a3], u as [[u1 u2] u3]; cbn; ring.
Qed.

Lemma boost_add_acc a u s v : boost a u (add_acc s v) = add_acc (boost a u s) v.
Proof. by destruct s, v as [[v1 v2] v3], a as [[a1 a2] a3], u as [[u1 u2] u3]. Qed.

Lemma fold_add_acc_boost a u (l : list (vec R)) s :
  fold_left add_acc l (boost a u s) = boost a u (fold_left add_acc l s).
Proof.
  revert s. induction l as [|v l IH]; intros s; [done|].
  cbn. by rewrite <- boost_add_acc, IH.
Qed.

(** X5: in exact arithmetic the call is invariant under a change of
    inertial frame: displacing every particle by the same vector and adding
    the same velocity to every particle commutes with the call. *)
Theorem galilean_invariance a u sim rad :
  rebx_radiation_forces (boost_sim a u sim) rad
  = boost_sim a u <$> rebx_radiation_forces sim rad.
Proof.
  apply (rebx_radiation_forces_transport (fmap (boost a u)) (boost a u)).
  - apply length_fmap.
  - apply index_fmap.
  - intros s. by destruct s, a as [[a1 a2] a3], u as [[u1 u2] u3].
  - intros s k _ _. unfold contribution.
    destruct (k =? source_index (paramsPtr rad))%Z; [done|].
    rewrite index_fmap. destruct (index (particles sim) k) as [p|]; [cbn|done].
    replace (rebx_search_param (boost a u p) RAD_BETA)
      with (rebx_search_param p RAD_BETA)
      by (by destruct p, a as [[a1 a2] a3], u as [[u1 u2] u3]).
    destruct (rebx_search_param p RAD_BETA) as [beta|]; [|done].
    unfold increments. cbn. by rewrite increment_boost.
  - intros s l _. by rewrite list_fmap_insert, fold_add_acc_boost.
Qed.





End Frames.

(** ** The order of the particles, in exact arithmetic *)

Section LoopRanges.
Context {F : Type} `{Arith F}.
Implicit Types (ps : list (reb_particle F)).



End LoopRanges.

Section Order.
Local Open Scope R_scope.
Implicit Types (p q s source : reb_particle R) (ps : list (reb_particle R)).
Implicit Types (sim : reb_simulation R) (rad : rebx_effect R) (u v w : vec R).



End Order.

Section OrderOfParticles.
Local Open Scope R_scope.
Implicit Types (sim : reb_simulation R) (rad : rebx_effect R).


End OrderOfParticles.



(** ** The direction of the added acceleration *)

Section Direction.
Local Open Scope R_scope.

Lemma Rinv_nonneg (r : R) : 0 <= r -> 0 <= / r.
Proof.
  intros [Hpos|<-].
  - left. by apply Rinv_0_lt_compat.
  - rewrite Rinv_0. lra.
Qed.

(** X8: in exact arithmetic, a particle that has the velocity of the source
    adds to the source an acceleration along the vector from the source to
    the particle, with a factor that is not negative when beta * G * M is
    not: the source is drawn towards the particle. *)
Theorem increment_towards_particle (c mu : R) (s p : reb_particle R) (beta : R) :
  vel p = vel s -> 0 <= beta * mu ->
  exists k, 0 <= k /\ increment c mu s p beta = scale k (spec_d s p).
Proof.
  intros Hvel Hmu.
  exists (beta * mu / (dr s p * dr s p) / dr s p). split.
  - assert (Hdr : 0 <= dr s p) by apply sqrt_pos.
    unfold Rdiv. apply Rmult_le_pos; [apply Rmult_le_pos; [exact Hmu|]|].
    + apply Rinv_nonneg. by apply Rmult_le_pos.
    + by apply Rinv_nonneg.
  - unfold increment, a_rad, rdot. destruct s, p. unfold vel in Hvel. cbn in Hvel.
    injection Hvel as -> -> ->. unfold spec_d. cbn.
    f_equal; [f_equal|]; unfold Rdiv; ring.
Qed.

End Direction.

(** X8 on the particle of the exact scenario. *)
Lemma increment_towards_particle_witness :
  exists k, (0 <= k)%R
    /\ increment 10000%R 1%R exact_source exact_dust (1 / 100)%R
       = scale k (spec_d exact_source exact_dust).
Proof.
  apply increment_towards_particle; [reflexivity|lra].
Defined.
